(** * batch-fix-types.py: the rewrite engine, its write-back and its traversal

    A shallow embedding of [backend/batch-fix-types.py].  The script reads
    every route file, applies four textual rewriting patterns built on
    Python's [re.sub], and writes the file back when the text changed.

    Text is a list of 8-bit characters, the text that [f.read()] returns
    and [f.write] receives.  The regular expressions of the script use
    only three constructs (a run of literal characters, the capturing
    group [(\w+)] and the lazy wildcard [[\s\S]*?]); they are interpreted
    by a small backtracking matcher, and [re.sub] is the usual left-to-right
    scan over non-overlapping matches.  The files are a finite map from
    paths to texts, with a log of the writes; the directory listing that
    [os.walk] reads is a tree of names. *)

From Stdlib Require Import Ascii String NArith.
From stdpp Require Import gmap strings list fin_maps.

Local Open Scope list_scope.

(** ** Text *)

Abbreviation text := (list ascii).

(** A Python string literal of the script. *)
Definition txt (s : string) : text := list_ascii_of_string s.

(** [s.startswith(p)], also the test "the literal [p] matches at this
    position". *)
Fixpoint starts_with (p s : text) : bool :=
  match p, s with
  | [], _ => true
  | _ :: _, [] => false
  | a :: p', b :: s' => if Ascii.eqb a b then starts_with p' s' else false
  end.

(** [s.endswith(p)]. *)
Definition ends_with (p s : text) : bool :=
  starts_with (rev p) (rev s).

(** [p in s]. *)
Fixpoint str_in (p s : text) : bool :=
  if starts_with p s then true
  else match s with
       | [] => false
       | _ :: s' => str_in p s'
       end.

(** [s.find(p)], with [None] for Python's [-1]. *)
Fixpoint str_find (p s : text) : option nat :=
  if starts_with p s then Some 0
  else match s with
       | [] => None
       | _ :: s' => S <$> str_find p s'
       end.

(** ** Auxiliary notions for the proofs *)

(** Two texts differ at a position that both of them have. *)
Fixpoint clash (a b : text) : bool :=
  match a, b with
  | x :: a', y :: b' => if Ascii.eqb x y then clash a' b' else true
  | _, _ => false
  end.

(** No occurrence of [old] starts inside an occurrence of [m], nor the
    other way round: the two literals never share a character. *)
Definition apart (old m : text) : bool :=
  forallb (fun k => clash old (drop k m)) (seq 0 (length m))
  && forallb (fun j => clash (drop j old) m) (seq 0 (length old)).

(** No proper non-empty suffix of [l] is a prefix of [l]: two occurrences of
    [l] never overlap. *)
Definition overlap_free (l : text) : bool :=
  forallb (fun k => clash (drop k l) l) (seq 1 (length l - 1)).

(** [patched old s t]: [t] is [s] with some occurrences of the literal
    [old] replaced by other text, everything else being kept. *)
Inductive patched (old : text) : text -> text -> Prop :=
| patched_nil : patched old [] []
| patched_keep c s t : patched old s t -> patched old (c :: s) (c :: t)
| patched_swap new s t : patched old s t -> patched old (old ++ s) (new ++ t).

(** The classification of a text in plain ASCII: no character above 127 is
    a word character. *)
Definition ascii_only : ascii -> bool := fun _ => false.

(** The number of blocks [{ ... }] still open at the end of [s], counted
    as the specification reads a block: by its braces.  A position with no
    open block lies outside every block, so outside every catch block. *)
Fixpoint open_braces_from (depth : nat) (s : text) : nat :=
  match s with
  | [] => depth
  | c :: s' =>
      if Ascii.eqb c "{" then open_braces_from (S depth) s'
      else if Ascii.eqb c "}" then open_braces_from (pred depth) s'
      else open_braces_from depth s'
  end.
Definition open_braces (s : text) : nat := open_braces_from 0 s.

(** ** Regular expressions *)

Inductive atom : Type :=
| Lit (l : text)      (* literal characters, escaped or not *)
| WordGroup           (* [(\w+)], greedy, capturing group 1 *)
| AnyLazy.            (* [[\s\S]*?] *)

Abbreviation regex := (list atom).

(** A match at the current position: the number of characters consumed
    and the text of group 1 (empty when the pattern has no group). *)
Abbreviation match_result := (option (nat * text)).

Definition advance (n : nat) (r : match_result) : match_result :=
  match r with
  | Some (m, g) => Some (n + m, g)
  | None => None
  end.

(** [[\s\S]*?] followed by the continuation [k]: the shortest skip first. *)
Fixpoint lazy_any (k : text -> match_result) (s : text) : match_result :=
  match k s with
  | Some r => Some r
  | None =>
      match s with
      | [] => None
      | _ :: s' => advance 1 (lazy_any k s')
      end
  end.

(** [(\w+)] followed by the continuation [k]: the longest run first, then
    backtracking one character at a time, never below one character. *)
Fixpoint greedy_word (k : text -> match_result) (s : text) (n : nat)
  : match_result :=
  match n with
  | 0 => None
  | S n' =>
      match k (drop n s) with
      | Some (m, _) => Some (n + m, take n s)
      | None => greedy_word k s n'
      end
  end.

Section Engine.

(** Python's [\w] on a [str] pattern is Unicode aware: beside
    [[a-zA-Z0-9_]] it accepts the alphanumeric characters outside ASCII.
    The classification of the characters above 127 is left as a parameter;
    every result below holds for each choice of it. *)
Variable is_word_ext : ascii -> bool.

Definition is_word (c : ascii) : bool :=
  let n := N_of_ascii c in
  ((48 <=? n) && (n <=? 57))%N
  || ((65 <=? n) && (n <=? 90))%N
  || ((97 <=? n) && (n <=? 122))%N
  || (n =? 95)%N
  || ((128 <=? n)%N && is_word_ext c).

(** The longest prefix of word characters. *)
Fixpoint word_prefix (s : text) : text :=
  match s with
  | [] => []
  | c :: s' => if is_word c then c :: word_prefix s' else []
  end.

(** Matching a pattern at the start of [s]. *)
Fixpoint match_here (r : regex) : text -> match_result :=
  match r with
  | [] => fun _ => Some (0, [])
  | a :: r' =>
      let k := match_here r' in
      match a with
      | Lit l =>
          fun s =>
            if starts_with l s then advance (length l) (k (drop (length l) s))
            else None
      | WordGroup => fun s => greedy_word k s (length (word_prefix s))
      | AnyLazy => fun s => lazy_any k s
      end
  end.

(** [re.search(r, s)]: the start of the leftmost match. *)
Fixpoint re_search (r : regex) (s : text) : option nat :=
  match match_here r s with
  | Some _ => Some 0
  | None =>
      match s with
      | [] => None
      | _ :: s' => S <$> re_search r s'
      end
  end.

(** The scan of [re.sub] and of [str.replace]: at each position outside the
    previous match the matcher is tried; a match is replaced and the scan
    resumes behind it, otherwise the character is copied.  [skip] counts
    the characters of the current match still to be passed over.  (No
    pattern of the script matches the empty string; an empty match would
    insert the replacement and copy the character.) *)
Fixpoint sub_scan (m : text -> match_result) (repl : text -> text -> text)
    (s : text) (skip : nat) : text :=
  match s with
  | [] => []
  | c :: s' =>
      match skip with
      | S k => sub_scan m repl s' k
      | 0 =>
          match m s with
          | Some (0, g) => repl [] g ++ c :: sub_scan m repl s' 0
          | Some (S n, g) => repl (take (S n) s) g ++ sub_scan m repl s' n
          | None => c :: sub_scan m repl s' 0
          end
      end
  end.

(** [re.sub(r, repl, s)], [repl] receiving [group(0)] and [group(1)]. *)
Definition re_sub (r : regex) (repl : text -> text -> text) (s : text) : text :=
  sub_scan (match_here r) repl s 0.

(** [s.replace(old, new)] for a non-empty [old]. *)
Definition str_replace (old new s : text) : text :=
  sub_scan (fun s => if starts_with old s then Some (length old, []) else None)
           (fun _ _ => new) s 0.

(** ** The four patterns of [fix_api_route_file] *)

(** Pattern 1: [request.params] accessing unknown type. *)
Definition params_re : regex := [Lit (txt "request.params."); WordGroup].
Definition params_repl (_ g1 : text) : text :=
  txt "(request.params as { " ++ g1 ++ txt ": string })." ++ g1.
Definition pattern1 (content : text) : text :=
  re_sub params_re params_repl content.

(** Pattern 2: [request.query] accessing unknown type. *)
Definition interface_def : text :=
  txt "
interface QueryParams {
    [key: string]: string | undefined;
}

".
Definition anchor_re : regex := [Lit (txt "export async function")].
Definition query_re : regex := [Lit (txt "request.query."); WordGroup].
Definition query_repl (_ g1 : text) : text :=
  txt "(request.query as QueryParams)." ++ g1.

Definition add_interface (content : text) : text :=
  if negb (str_in (txt "interface QueryParams") content) then
    match re_search anchor_re content with
    | Some start => take start content ++ interface_def ++ drop start content
    | None => content
    end
  else content.

Definition pattern2 (content : text) : text :=
  if str_in (txt "request.query") content then
    re_sub query_re query_repl (add_interface content)
  else content.

(** Pattern 3: [request.body] accessing unknown type. *)
Definition body_re : regex := [Lit (txt "request.body."); WordGroup].
Definition body_repl (_ g1 : text) : text :=
  txt "(request.body as Record<string, unknown>)." ++ g1.
Definition pattern3 (content : text) : text :=
  re_sub body_re body_repl content.

(** Pattern 4: [error] is of type unknown in catch blocks. *)
Definition catch_re : regex :=
  [Lit (txt "catch (error) {"); AnyLazy; Lit (txt "error.message")].
Definition catch_repl (g0 _ : text) : text :=
  str_replace (txt "error.message") (txt "(error as Error).message") g0.
Definition pattern4 (content : text) : text :=
  re_sub catch_re catch_repl content.

(** The text computed between reading the file and the final comparison. *)
Definition fix_content (content : text) : text :=
  pattern4 (pattern3 (pattern2 (pattern1 content))).

(** ** Reading and writing back

    The files the script can open, by path, together with the log of the
    writes it performs.  Paths are taken relative to [BACKEND_DIR], so that
    [filepath.relative_to(BACKEND_DIR)] is the path itself. *)
Record disk : Type := Disk {
  files : gmap string text;
  writes : list (string * text)
}.

(** [fix_api_route_file(filepath)].  [None] stands for the exception that
    [open] raises on a file that cannot be read. *)
Definition fix_api_route_file (d : disk) (filepath : string)
  : option (disk * bool) :=
  match files d !! filepath with
  | None => None
  | Some content =>
      let original := content in
      let content := fix_content content in
      if bool_decide (content ≠ original) then
        Some (Disk (<[filepath := content]> (files d))
                   (writes d ++ [(filepath, content)]), true)
      else Some (d, false)
  end.

(** ** The traversal *)

(** A directory entry as [os.walk] sees it. *)
#[warnings="-register-all"]
Inductive node : Type :=
| FileNode (name : string)
| DirNode (name : string) (children : list node).

Definition dir_names (l : list node) : list string :=
  flat_map (fun n => match n with DirNode d _ => [d] | FileNode _ => [] end) l.
Definition file_names (l : list node) : list string :=
  flat_map (fun n => match n with FileNode f => [f] | DirNode _ _ => [] end) l.

(** [Path(root) / name]. *)
Definition path_join (root name : string) : string :=
  (root +:+ "/" +:+ name)%string.

(** [os.walk(top)], top-down: below a directory entry, the triple of the
    directory itself, then the walks of its sub-directories in turn. *)
Fixpoint walk_node (parent : string) (n : node)
  : list (string * list string * list string) :=
  match n with
  | FileNode _ => []
  | DirNode d children =>
      let root := path_join parent d in
      (root, dir_names children, file_names children)
      :: flat_map (walk_node root) children
  end.

(** With the default [onerror=None] a top directory that does not exist or
    cannot be listed is skipped silently: the generator yields nothing. *)
Definition os_walk (top : string) (listing : option (list node))
  : list (string * list string * list string) :=
  match listing with
  | None => []
  | Some entries =>
      (top, dir_names entries, file_names entries)
      :: flat_map (walk_node top) entries
  end.

Definition routes_dir : string := "src/api/routes".

(** The test of the inner loop. *)
Definition is_candidate (file : string) : bool :=
  ends_with (txt ".ts") (txt file) && negb (ends_with (txt ".test.ts") (txt file)).

(** What the script prints. *)
Inductive line : Type :=
| Fixed (relpath : string)
| TotalFixed (n : nat).

Record run : Type := Run {
  run_disk : disk;
  fixed_count : nat;
  stdout : list line
}.

(** The body of [for file in files]. *)
Definition visit_file (root : string) (st : option run) (file : string)
  : option run :=
  match st with
  | None => None
  | Some r =>
      if is_candidate file then
        let filepath := path_join root file in
        match fix_api_route_file (run_disk r) filepath with
        | None => None
        | Some (d, true) =>
            Some (Run d (S (fixed_count r)) (stdout r ++ [Fixed filepath]))
        | Some (d, false) => Some (Run d (fixed_count r) (stdout r))
        end
      else Some r
  end.

(** The body of [for root, dirs, files in os.walk(routes_dir)]. *)
Definition visit_dir (st : option run)
    (entry : string * list string * list string) : option run :=
  let '(root, _, files) := entry in
  fold_left (visit_file root) files st.

(** The module level code: the traversal, then the total.  [listing] is
    what lies below [routes_dir], [None] when that directory is missing or
    not traversable; the result is [None] when an exception ends the run. *)
Definition main (listing : option (list node)) (d : disk) : option run :=
  match fold_left visit_dir (os_walk routes_dir listing) (Some (Run d 0 [])) with
  | None => None
  | Some r =>
      Some (Run (run_disk r) (fixed_count r)
                (stdout r ++ [TotalFixed (fixed_count r)]))
  end.

(** The paths on which the two loops call [fix_api_route_file], in the
    order of the calls. *)
Definition candidate_paths (walk : list (string * list string * list string))
  : list string :=
  flat_map (fun entry : string * list string * list string =>
              map (path_join entry.1.1) (List.filter is_candidate entry.2))
           walk.

(** The body of the inner loop behind its test, on the path of the file. *)
Definition visit_path (st : option run) (filepath : string) : option run :=
  match st with
  | None => None
  | Some r =>
      match fix_api_route_file (run_disk r) filepath with
      | None => None
      | Some (d, true) =>
          Some (Run d (S (fixed_count r)) (stdout r ++ [Fixed filepath]))
      | Some (d, false) => Some (Run d (fixed_count r) (stdout r))
      end
  end.

(** A sample: a routes directory with a test file, a script and a
    sub-directory, and the files that can be read. *)
Definition sample_listing : list node :=
  [FileNode "users.ts"; FileNode "users.test.ts";
   DirNode "admin" [FileNode "roles.ts"]; FileNode "build.js"].

Definition sample_disk : disk :=
  Disk (<["src/api/routes/users.ts"%string :=
            txt "const id = request.params.id;"]>
        (<["src/api/routes/users.test.ts"%string :=
            txt "const id = request.params.id;"]>
        (<["src/api/routes/admin/roles.ts"%string :=
            txt "export const roles = [];"]> ∅))) [].

(** * Properties *)

(** ** Prefixes and occurrences *)

Lemma starts_with_spec (p s : text) :
  starts_with p s = true <-> exists r, s = p ++ r.
Proof.
  revert s. induction p as [|a p IH]; intros s; simpl.
  - split; [intros _; by exists s | done].
  - destruct s as [|b s].
    + split; [done | intros [r Hr]; discriminate].
    + destruct (Ascii.eqb_spec a b) as [->|Hab].
      * rewrite IH. split; intros [r Hr]; exists r; congruence.
      * split; [done | intros [r Hr]; congruence].
Qed.

Lemma starts_with_app (p r : text) : starts_with p (p ++ r) = true.
Proof. apply starts_with_spec. by exists r. Qed.

Lemma starts_with_drop (p s : text) :
  starts_with p s = true -> s = p ++ drop (length p) s.
Proof.
  intros [r ->]%starts_with_spec. by rewrite drop_app_length.
Qed.

Lemma starts_with_extend (p s r : text) :
  starts_with p s = true -> starts_with p (s ++ r) = true.
Proof.
  intros [q ->]%starts_with_spec. rewrite <- app_assoc. apply starts_with_app.
Qed.

Lemma ends_with_spec (p s : text) :
  ends_with p s = true <-> exists r, s = r ++ p.
Proof.
  unfold ends_with. rewrite starts_with_spec. split.
  - intros [r Hr]. exists (rev r).
    rewrite <- (rev_involutive s), Hr, rev_app_distr.
    by rewrite rev_involutive.
  - intros [r ->]. exists (rev r). by rewrite rev_app_distr.
Qed.

Lemma str_in_spec (p s : text) :
  str_in p s = true <-> exists a b, s = a ++ p ++ b.
Proof.
  induction s as [|c s IH]; simpl.
  - destruct (starts_with p []) eqn:E.
    + apply starts_with_spec in E as [r Hr]. split; [|done].
      intros _. by exists [], r.
    + split; [done|]. intros (a & b & Hab).
      destruct a; [|discriminate]. simpl in Hab.
      assert (starts_with p [] = true) by (apply starts_with_spec; eauto).
      congruence.
  - destruct (starts_with p (c :: s)) eqn:E.
    + apply starts_with_spec in E as [r Hr]. split; [|done].
      intros _. by exists [], r.
    + rewrite IH. split.
      * intros (a & b & ->). by exists (c :: a), b.
      * intros (a & b & Hab). destruct a as [|a0 a].
        -- simpl in Hab.
           assert (starts_with p (c :: s) = true)
             by (apply starts_with_spec; eauto).
           congruence.
        -- injection Hab as -> ->. by exists a, b.
Qed.

Lemma str_in_starts_with (p s : text) :
  starts_with p s = true -> str_in p s = true.
Proof. intros H. destruct s; simpl; by rewrite H. Qed.

(** A text without [q] has no longer literal around [q] either. *)
Lemma str_in_infix_false (a q b s : text) :
  str_in q s = false -> str_in (a ++ q ++ b) s = false.
Proof.
  intros Hq. destruct (str_in (a ++ q ++ b) s) eqn:E; [|done].
  apply str_in_spec in E as (x & y & ->).
  assert (str_in q (x ++ (a ++ q ++ b) ++ y) = true) as H; [|congruence].
  apply str_in_spec. exists (x ++ a), (b ++ y). by rewrite <- !app_assoc.
Qed.

Lemma str_in_app_mid (p a m b : text) :
  str_in p m = true -> str_in p (a ++ m ++ b) = true.
Proof.
  intros (x & y & ->)%str_in_spec. apply str_in_spec.
  exists (a ++ x), (y ++ b). by rewrite <- !app_assoc.
Qed.

Lemma str_in_app_r (p a s : text) :
  str_in p s = true -> str_in p (a ++ s) = true.
Proof.
  intros H. rewrite <- (app_nil_r s). by apply str_in_app_mid.
Qed.

(** An occurrence in [x ++ s] starts inside [x] or lies in [s]. *)
Lemma str_in_app_cases (p x s : text) :
  str_in p (x ++ s) = true ->
  (exists j, j < length x /\ starts_with p (drop j x ++ s) = true)
  \/ str_in p s = true.
Proof.
  induction x as [|c x IH]; simpl; [by right|].
  destruct (starts_with p (c :: x ++ s)) eqn:E.
  - intros _. left. exists 0. split; [lia | done].
  - intros H. destruct (IH H) as [(j & Hj & Hs)|Hs]; [|by right].
    left. exists (S j). split; [lia | done].
Qed.

(** [str.find] returns the leftmost occurrence. *)
Lemma str_find_spec (p s : text) (i : nat) :
  str_find p s = Some i <->
  starts_with p (drop i s) = true /\ i <= length s
  /\ forall j, j < i -> starts_with p (drop j s) = false.
Proof.
  revert i. induction s as [|c s IH]; intros i; simpl.
  - destruct (starts_with p []) eqn:E.
    + split.
      * intros [= <-]. simpl. repeat split; [done | lia..].
      * intros (_ & Hi & _). by replace i with 0 by lia.
    + split; [done|]. intros (H & _ & _). rewrite drop_nil in H. congruence.
  - destruct (starts_with p (c :: s)) eqn:E.
    + split.
      * intros [= <-]. simpl. repeat split; [done | lia..].
      * intros (_ & _ & Hj). destruct i as [|i]; [done|].
        specialize (Hj 0 ltac:(lia)). simpl in Hj. congruence.
    + destruct (str_find p s) as [k|]; simpl.
      * split.
        -- intros [= <-]. destruct (proj1 (IH k) eq_refl) as (H1 & H2 & H3).
           simpl. repeat split; [done | lia |].
           intros [|j] Hj; simpl; [done | apply H3; lia].
        -- intros (H1 & H2 & H3). destruct i as [|i]; simpl in *; [congruence|].
           assert (Some k = Some i) as [= ->]; [|done].
           apply (proj2 (IH i)).
           repeat split; [done | lia |].
           intros j Hj. apply (H3 (S j)). lia.
      * split; [done|]. intros (H1 & H2 & H3).
        destruct i as [|i]; simpl in *; [congruence|].
        assert (None = Some i) as Hc; [|done].
        apply (proj2 (IH i)). repeat split; [done | lia |].
        intros j Hj. apply (H3 (S j)). lia.
Qed.

Lemma str_find_None (p s : text) :
  str_find p s = None <-> str_in p s = false.
Proof.
  induction s as [|c s IH]; simpl.
  - by destruct (starts_with p []).
  - destruct (starts_with p (c :: s)); [done|].
    rewrite <- IH. by destruct (str_find p s).
Qed.

Lemma str_find_app (p b r : text) :
  str_find p (b ++ p ++ r) = Some (length b) ->
  forall x y, b = x ++ y -> y <> [] -> starts_with p (y ++ p ++ r) = false.
Proof.
  intros (_ & _ & H)%str_find_spec x y -> Hy.
  specialize (H (length x)). rewrite <- app_assoc, drop_app_length in H.
  apply H. rewrite length_app.
  destruct y; [done | simpl; lia].
Qed.

(** ** Literals that cannot overlap *)

Lemma clash_starts_with (a b r : text) :
  clash a b = true -> starts_with a (b ++ r) = false.
Proof.
  revert b. induction a as [|x a IH]; intros [|y b]; simpl; try done.
  destruct (Ascii.eqb x y); [apply IH | done].
Qed.

Lemma clash_sym (a b : text) : clash a b = clash b a.
Proof.
  revert b. induction a as [|x a IH]; intros [|y b]; simpl; try done.
  rewrite (Ascii.eqb_sym y x). destruct (Ascii.eqb x y); [apply IH | done].
Qed.

Lemma forallb_seq (f : nat -> bool) (a n k : nat) :
  forallb f (seq a n) = true -> a <= k < a + n -> f k = true.
Proof.
  intros H Hk. eapply forallb_forall in H; [done|]. apply in_seq. lia.
Qed.

(** An occurrence of [l] reaching into a later occurrence of [l] lies
    wholly before it. *)
Lemma no_straddle (l x r : text) :
  overlap_free l = true ->
  starts_with l (x ++ l ++ r) = true ->
  x = [] \/ starts_with l x = true.
Proof.
  intros Hfree Hs. destruct (decide (length l <= length x)) as [Hle|Hgt].
  - right. apply starts_with_spec in Hs as [q Hq]. apply starts_with_spec.
    exists (drop (length l) x).
    rewrite <- (take_drop (length l) x) at 1. f_equal.
    apply (f_equal (take (length l))) in Hq.
    rewrite take_app_le in Hq by done. by rewrite take_app_length in Hq.
  - destruct (decide (x = [])) as [->|Hx]; [by left|]. exfalso.
    assert (0 < length x) as Hpos by (destruct x; [done | simpl; lia]).
    assert (clash (drop (length x) l) l = true) as Hc.
    { apply (forallb_seq (fun k => clash (drop k l) l) 1 (length l - 1));
        [done | lia]. }
    apply (clash_starts_with _ _ r) in Hc.
    apply starts_with_spec in Hs as [q Hq].
    apply (f_equal (drop (length x))) in Hq. rewrite drop_app_length in Hq.
    rewrite drop_app_le in Hq by lia.
    assert (starts_with (drop (length x) l) (l ++ r) = true); [|congruence].
    apply starts_with_spec. by exists q.
Qed.

(** Before the first occurrence of [l], even reaching into it, [l] does
    not start. *)
Lemma absent_before (l a r x y : text) :
  overlap_free l = true ->
  str_in l a = false ->
  a = x ++ y -> y <> [] ->
  starts_with l (y ++ l ++ r) = false.
Proof.
  intros Hfree Ha -> Hy.
  destruct (starts_with l (y ++ l ++ r)) eqn:E; [|done].
  destruct (no_straddle l y r Hfree E) as [->|E']; [done|].
  assert (str_in l (x ++ y) = true); [|congruence].
  apply str_in_app_r. by apply str_in_starts_with.
Qed.

(** ** The scan *)

Section Scan.
Variables (m : text -> match_result) (repl : text -> text -> text).

Lemma sub_scan_skip (s : text) (k : nat) :
  sub_scan m repl s k = sub_scan m repl (drop k s) 0.
Proof.
  revert k. induction s as [|c s IH]; intros [|k]; simpl; auto.
Qed.

Lemma sub_scan_match (s : text) (n : nat) (g : text) :
  m s = Some (S n, g) -> s <> [] ->
  sub_scan m repl s 0 = repl (take (S n) s) g ++ sub_scan m repl (drop (S n) s) 0.
Proof.
  intros Hm Hs. destruct s as [|c s]; [done|]. simpl. rewrite Hm.
  f_equal. apply sub_scan_skip.
Qed.

Lemma sub_scan_copy (c : ascii) (s : text) :
  m (c :: s) = None -> sub_scan m repl (c :: s) 0 = c :: sub_scan m repl s 0.
Proof. intros Hm. simpl. by rewrite Hm. Qed.

(** A stretch in which no match starts is copied. *)
Lemma sub_scan_prefix (x y : text) :
  (forall x1 x2, x = x1 ++ x2 -> x2 <> [] -> m (x2 ++ y) = None) ->
  sub_scan m repl (x ++ y) 0 = x ++ sub_scan m repl y 0.
Proof.
  induction x as [|c x IH]; intros H; [done|].
  simpl app. rewrite sub_scan_copy.
  - f_equal. apply IH. intros x1 x2 -> Hx2. by apply (H (c :: x1) x2).
  - by apply (H [] (c :: x)).
Qed.

Lemma sub_scan_id (s : text) :
  (forall x1 x2, s = x1 ++ x2 -> m x2 = None) ->
  sub_scan m repl s 0 = s.
Proof.
  intros H. rewrite <- (app_nil_r s) at 1. rewrite sub_scan_prefix.
  - simpl. apply app_nil_r.
  - intros x1 x2 -> _. rewrite app_nil_r. by apply (H x1).
Qed.

End Scan.

(** ** The matcher on the patterns of the script *)

Lemma word_prefix_take (s : text) :
  take (length (word_prefix s)) s = word_prefix s.
Proof.
  induction s as [|c s IH]; simpl; [done|].
  destruct (is_word c); simpl; [by rewrite IH | done].
Qed.

Lemma word_prefix_drop (s : text) :
  s = word_prefix s ++ drop (length (word_prefix s)) s.
Proof.
  rewrite <- (take_drop (length (word_prefix s)) s) at 1.
  f_equal. apply word_prefix_take.
Qed.

(** [lit(\w+)] matches where the literal stands in front of at least one
    word character, and takes the whole run of them. *)
Lemma match_lit_word (l s : text) :
  match_here [Lit l; WordGroup] s =
  if starts_with l s then
    match word_prefix (drop (length l) s) with
    | [] => None
    | w => Some (length l + length w, w)
    end
  else None.
Proof.
  simpl. destruct (starts_with l s); [|done].
  pose proof (word_prefix_take (drop (length l) s)) as Ht.
  destruct (word_prefix (drop (length l) s)) as [|c w]; [done|].
  simpl length in *. cbn [greedy_word advance]. rewrite Ht.
  do 2 f_equal. lia.
Qed.

Lemma match_lit_only (l s : text) :
  match_here [Lit l] s =
  if starts_with l s then Some (length l + 0, []) else None.
Proof. reflexivity. Qed.

Lemma lazy_any_lit (l s : text) :
  lazy_any (match_here [Lit l]) s =
  match str_find l s with
  | Some j => Some (j + length l, [])
  | None => None
  end.
Proof.
  induction s as [|c s IH]; cbn [lazy_any str_find]; rewrite match_lit_only.
  - destruct (starts_with l []); [do 2 f_equal; lia | done].
  - destruct (starts_with l (c :: s)).
    + do 2 f_equal. lia.
    + rewrite IH. by destruct (str_find l s).
Qed.

(** [lit1[\s\S]*?lit2] matches where [lit1] stands, up to and including
    the first [lit2] behind it. *)
Lemma match_lit_lazy_lit (l1 l2 s : text) :
  match_here [Lit l1; AnyLazy; Lit l2] s =
  if starts_with l1 s then
    match str_find l2 (drop (length l1) s) with
    | Some j => Some (length l1 + j + length l2, [])
    | None => None
    end
  else None.
Proof.
  change (match_here [Lit l1; AnyLazy; Lit l2] s)
    with (if starts_with l1 s
          then advance (length l1)
                 (lazy_any (match_here [Lit l2]) (drop (length l1) s))
          else None).
  destruct (starts_with l1 s); [|done].
  rewrite lazy_any_lit. destruct (str_find l2 _); simpl; [|done].
  do 2 f_equal. lia.
Qed.

Lemma match_lit_fails (l : text) (r : regex) (s : text) :
  starts_with l s = false -> match_here (Lit l :: r) s = None.
Proof. intros H. simpl. by rewrite H. Qed.

Lemma re_search_lit (l s : text) : re_search [Lit l] s = str_find l s.
Proof.
  induction s as [|c s IH]; simpl.
  - by destruct (starts_with l []).
  - destruct (starts_with l (c :: s)); simpl; [done | by rewrite IH].
Qed.

(** ** [re.sub] on the patterns of the script *)

(** Without the leading literal nothing is rewritten. *)
Lemma re_sub_lit_absent (l : text) (r : regex) (repl : text -> text -> text)
    (s : text) :
  str_in l s = false -> re_sub (Lit l :: r) repl s = s.
Proof.
  intros H. apply sub_scan_id. intros x1 x2 ->.
  apply match_lit_fails. destruct (starts_with l x2) eqn:E; [|done].
  assert (str_in l (x1 ++ x2) = true); [|congruence].
  apply str_in_app_r. by apply str_in_starts_with.
Qed.

(** The leftmost access is rewritten, with the whole identifier behind
    it, and the scan goes on behind the identifier. *)
Lemma re_sub_lit_word_first (l : text) (repl : text -> text -> text)
    (a r : text) :
  overlap_free l = true -> l <> [] ->
  str_in l a = false -> word_prefix r <> [] ->
  re_sub [Lit l; WordGroup] repl (a ++ l ++ r) =
  a ++ repl (l ++ word_prefix r) (word_prefix r)
    ++ re_sub [Lit l; WordGroup] repl (drop (length (word_prefix r)) r).
Proof.
  intros Hfree Hl Ha Hw. unfold re_sub. rewrite sub_scan_prefix.
  - f_equal.
    assert (match_here [Lit l; WordGroup] (l ++ r)
            = Some (S (pred (length l + length (word_prefix r))),
                    word_prefix r)) as Hm.
    { rewrite match_lit_word, starts_with_app, drop_app_length.
      destruct (word_prefix r) as [|c w]; [done|].
      do 2 f_equal. destruct l; [done | simpl; lia]. }
    rewrite (sub_scan_match _ _ _ _ _ Hm) by (destruct l; done).
    assert (S (pred (length l + length (word_prefix r)))
            = length l + length (word_prefix r)) as ->
      by (destruct l; [done | simpl; lia]).
    rewrite take_app_add', drop_app_add' by done.
    by rewrite word_prefix_take.
  - intros x1 x2 Hx Hx2. apply match_lit_fails.
    by apply (absent_before l a r x1 x2).
Qed.

(** The leftmost span is rewritten, and the scan goes on behind it. *)
Lemma re_sub_lazy_first (l1 l2 : text) (repl : text -> text -> text)
    (a b r : text) :
  overlap_free l1 = true -> l1 <> [] ->
  str_in l1 a = false ->
  str_find l2 (b ++ l2 ++ r) = Some (length b) ->
  re_sub [Lit l1; AnyLazy; Lit l2] repl (a ++ l1 ++ b ++ l2 ++ r) =
  a ++ repl (l1 ++ b ++ l2) []
    ++ re_sub [Lit l1; AnyLazy; Lit l2] repl r.
Proof.
  intros Hfree Hl Ha Hb. unfold re_sub. rewrite sub_scan_prefix.
  - f_equal.
    assert (match_here [Lit l1; AnyLazy; Lit l2] (l1 ++ b ++ l2 ++ r)
            = Some (S (pred (length l1 + length b + length l2)), [])) as Hm.
    { rewrite match_lit_lazy_lit, starts_with_app, drop_app_length, Hb.
      do 2 f_equal. destruct l1; [done | simpl; lia]. }
    rewrite (sub_scan_match _ _ _ _ _ Hm) by (destruct l1; done).
    assert (S (pred (length l1 + length b + length l2))
            = length l1 + (length b + (length l2 + 0))) as ->
      by (destruct l1; [done | simpl; lia]).
    rewrite !take_app_add', !drop_app_add' by done.
    by rewrite take_0, drop_0, app_nil_r.
  - intros x1 x2 Hx Hx2. apply match_lit_fails.
    by apply (absent_before l1 a (b ++ l2 ++ r) x1 x2).
Qed.

(** ** [str.replace] inside the span of pattern 4 *)

Lemma str_replace_last (old new x : text) :
  old <> [] ->
  (forall x1 x2, x = x1 ++ x2 -> x2 <> [] -> starts_with old (x2 ++ old) = false) ->
  str_replace old new (x ++ old) = x ++ new.
Proof.
  intros Hold Hx. unfold str_replace. rewrite sub_scan_prefix.
  - f_equal. destruct old as [|c old]; [done|].
    rewrite (sub_scan_match _ _ _ (length old) []).
    + cbn [skipn]. rewrite drop_all. simpl. apply app_nil_r.
    + pose proof (starts_with_app (c :: old) []) as Hs.
      rewrite app_nil_r in Hs. by rewrite Hs.
    + done.
  - intros x1 x2 H1 H2. by rewrite (Hx x1 x2).
Qed.

(** The span that pattern 4 matches holds [error.message] at its end
    only, so the replacement changes the end of the span and nothing else. *)
Lemma catch_repl_span (b g : text) :
  (forall x1 x2, b = x1 ++ x2 -> x2 <> [] ->
     starts_with (txt "error.message") (x2 ++ txt "error.message") = false) ->
  catch_repl (txt "catch (error) {" ++ b ++ txt "error.message") g =
  txt "catch (error) {" ++ b ++ txt "(error as Error).message".
Proof.
  intros Hb. unfold catch_repl.
  pose proof (str_replace_last (txt "error.message")
                (txt "(error as Error).message") b ltac:(done) Hb) as Hr.
  unfold str_replace in *.
  change (txt "catch (error) {") with
    ["c"; "a"; "t"; "c"; "h"; " "; "("; "e"; "r"; "r"; "o"; "r"; ")"; " "; "{"]%char.
  cbn [app]. do 15 (rewrite sub_scan_copy by reflexivity).
  by rewrite Hr.
Qed.

(** Pattern 4 rewrites the first [error.message] behind the leftmost
    [catch (error) {] and goes on behind it. *)
Lemma pattern4_first (a b r : text) :
  str_in (txt "catch (error) {") a = false ->
  str_find (txt "error.message") (b ++ txt "error.message" ++ r)
    = Some (length b) ->
  pattern4 (a ++ txt "catch (error) {" ++ b ++ txt "error.message" ++ r) =
  a ++ txt "catch (error) {" ++ b ++ txt "(error as Error).message"
    ++ pattern4 r.
Proof.
  intros Ha Hb. unfold pattern4, catch_re.
  rewrite re_sub_lazy_first by done.
  rewrite catch_repl_span; [by rewrite <- !app_assoc|].
  intros x1 x2 Hx Hx2.
  pose proof (str_find_app _ _ _ Hb x1 x2 Hx Hx2) as Hs.
  destruct (starts_with _ (x2 ++ txt "error.message")) eqn:E; [|done].
  apply (starts_with_extend _ _ r) in E. rewrite <- app_assoc in E. congruence.
Qed.

Lemma pattern4_absent (s : text) :
  str_in (txt "catch (error) {") s = false -> pattern4 s = s.
Proof. apply re_sub_lit_absent. Qed.

(** ** The whole engine on texts without trigger *)

Lemma pattern1_absent (s : text) :
  str_in (txt "request.params.") s = false -> pattern1 s = s.
Proof. apply re_sub_lit_absent. Qed.

Lemma pattern3_absent (s : text) :
  str_in (txt "request.body.") s = false -> pattern3 s = s.
Proof. apply re_sub_lit_absent. Qed.

Lemma query_sub_absent (s : text) :
  str_in (txt "request.query.") s = false -> re_sub query_re query_repl s = s.
Proof. apply re_sub_lit_absent. Qed.

Lemma txt_app (a b : string) : txt (a +:+ b) = txt a ++ txt b.
Proof. unfold txt. induction a as [|c a IH]; simpl; [done | by rewrite IH]. Qed.

Lemma txt_inj (a b : string) : txt a = txt b -> a = b.
Proof.
  unfold txt. intros H.
  by rewrite <- (string_of_list_ascii_of_string a), H,
       string_of_list_ascii_of_string.
Qed.

Lemma txt_surj (t : text) : txt (string_of_list_ascii t) = t.
Proof. apply list_ascii_of_string_of_list_ascii. Qed.

(** ** Every pattern only patches occurrences of its literal *)

Lemma patched_app (old x s t : text) :
  patched old s t -> patched old (x ++ s) (x ++ t).
Proof. intros H. induction x; simpl; [done | by constructor]. Qed.

Lemma str_in_nil (l : text) : l <> [] -> str_in l [] = false.
Proof. by destruct l. Qed.

Lemma patched_lit_word (l : text) (repl : text -> text -> text)
    (f : text -> text) :
  overlap_free l = true -> l <> [] ->
  (forall g0 g1, repl g0 g1 = f g1 ++ g1) ->
  forall s, patched l s (re_sub [Lit l; WordGroup] repl s).
Proof.
  intros Hfree Hl Hrepl s.
  assert (forall n s, length s <= n ->
            patched l s (re_sub [Lit l; WordGroup] repl s)) as H;
    [|by apply (H (length s))].
  clear s. induction n as [|n IH]; intros s Hn.
  { destruct s; [constructor | simpl in Hn; lia]. }
  destruct s as [|c s]; [constructor|].
  destruct (match_here [Lit l; WordGroup] (c :: s)) as [[k g]|] eqn:Em.
  - rewrite match_lit_word in Em.
    destruct (starts_with l (c :: s)) eqn:Es; [|done].
    apply starts_with_drop in Es.
    destruct (word_prefix (drop (length l) (c :: s))) as [|c' w] eqn:Ew;
      [done|].
    rewrite Es.
    pose proof (re_sub_lit_word_first l repl [] (drop (length l) (c :: s))
                  Hfree Hl (str_in_nil l Hl)) as Hsub.
    rewrite Ew in Hsub. cbn [app] in Hsub. rewrite Hsub by done.
    rewrite Hrepl, <- app_assoc.
    rewrite (word_prefix_drop (drop (length l) (c :: s))) at 1. rewrite Ew.
    apply patched_swap, patched_app, IH.
    rewrite !length_drop. simpl in *. destruct l; [done | simpl; lia].
  - unfold re_sub. rewrite sub_scan_copy by done.
    constructor. apply IH. simpl in Hn. lia.
Qed.

Lemma patched_pattern4 (s : text) :
  patched (txt "error.message") s (pattern4 s).
Proof.
  assert (forall n s, length s <= n ->
            patched (txt "error.message") s (pattern4 s)) as H;
    [|by apply (H (length s))].
  clear s. induction n as [|n IH]; intros s Hn.
  { destruct s; [constructor | simpl in Hn; lia]. }
  destruct s as [|c s]; [constructor|].
  destruct (match_here catch_re (c :: s)) as [[k g]|] eqn:Em.
  - unfold catch_re in Em. rewrite match_lit_lazy_lit in Em.
    destruct (starts_with _ (c :: s)) eqn:Es; [|done].
    apply starts_with_drop in Es.
    destruct (str_find _ (drop _ (c :: s))) as [j|] eqn:Ej; [|done].
    remember (drop (length (txt "catch (error) {")) (c :: s)) as x eqn:Ex.
    pose proof (proj1 (str_find_spec _ _ _) Ej) as (Hj1 & Hj2 & _).
    apply starts_with_drop in Hj1.
    remember (take j x) as b eqn:Eb.
    remember (drop (length (txt "error.message")) (drop j x)) as rest eqn:Er.
    assert (x = b ++ txt "error.message" ++ rest) as Hx
      by (rewrite <- Hj1, Eb; symmetry; apply take_drop).
    assert (length b = j) as Hlen by (rewrite Eb, length_take; lia).
    assert (length rest < length (c :: s)) as Hrest.
    { apply (f_equal length) in Es, Hx. rewrite !length_app in Es, Hx.
      simpl in *. lia. }
    rewrite Hx, <- Hlen in Ej. rewrite Es, Hx.
    pose proof (pattern4_first [] _ _ eq_refl Ej) as Hp.
    cbn [app] in Hp. rewrite Hp.
    apply patched_app, patched_app, patched_swap, IH.
    simpl in *. lia.
  - unfold pattern4, re_sub. rewrite sub_scan_copy by done.
    constructor. apply IH. simpl in Hn. lia.
Qed.

(** A literal that shares no character with any occurrence of [old]
    survives the patching. *)
Lemma patched_starts_with (old : text) (s t : text) :
  patched old s t ->
  forall m,
    (forall k, k < length m -> clash old (drop k m) = true) ->
    starts_with m s = true -> starts_with m t = true.
Proof.
  induction 1 as [|c s t Hp IH|new s t Hp IH]; intros m Hm Hs; [done| |].
  - destruct m as [|x m]; [done|]. simpl in *.
    destruct (Ascii.eqb x c); [|done].
    apply IH; [|done]. intros k Hk. apply (Hm (S k)). lia.
  - destruct m as [|x m]; [done|].
    specialize (Hm 0 ltac:(simpl; lia)). simpl drop in Hm.
    rewrite clash_sym in Hm.
    by rewrite (clash_starts_with _ _ s Hm) in Hs.
Qed.

Lemma patched_keeps (old m s t : text) :
  apart old m = true ->
  patched old s t -> str_in m s = true -> str_in m t = true.
Proof.
  intros [H1 H2]%andb_true_iff Hp.
  assert (forall k, k < length m -> clash old (drop k m) = true) as Hin.
  { intros k Hk. apply (forallb_seq (fun k => clash old (drop k m)) 0 (length m));
      [done | lia]. }
  induction Hp as [|c s t Hp IH|new s t Hp IH]; intros Hs; [done| |].
  - simpl in Hs. destruct (starts_with m (c :: s)) eqn:E.
    + apply str_in_starts_with.
      apply (patched_starts_with old (c :: s)); [by constructor | done..].
    + apply (str_in_app_r m [c]). by apply IH.
  - apply str_in_app_cases in Hs as [(j & Hj & Hs)|Hs].
    + assert (clash (drop j old) m = true) as Hc.
      { apply (forallb_seq (fun j => clash (drop j old) m) 0 (length old));
          [done | lia]. }
      rewrite clash_sym in Hc.
      by rewrite (clash_starts_with _ _ s Hc) in Hs.
    + apply str_in_app_r. by apply IH.
Qed.

(** ** The marker of the interface survives every pattern *)



Lemma pattern1_keeps_marker (s : text) :
  str_in (txt "interface QueryParams") s = true ->
  str_in (txt "interface QueryParams") (pattern1 s) = true.
Proof.
  apply (patched_keeps (txt "request.params.")); [done|].
  apply (patched_lit_word _ _
           (fun g1 => txt "(request.params as { " ++ g1 ++ txt ": string }).")
        ); [done | done |].
  intros g0 g1. unfold params_repl. by rewrite <- !app_assoc.
Qed.

Lemma query_sub_keeps_marker (s : text) :
  str_in (txt "interface QueryParams") s = true ->
  str_in (txt "interface QueryParams") (re_sub query_re query_repl s) = true.
Proof.
  apply (patched_keeps (txt "request.query.")); [done|].
  by apply (patched_lit_word _ _
              (fun _ => txt "(request.query as QueryParams).")).
Qed.

Lemma pattern3_keeps_marker (s : text) :
  str_in (txt "interface QueryParams") s = true ->
  str_in (txt "interface QueryParams") (pattern3 s) = true.
Proof.
  apply (patched_keeps (txt "request.body.")); [done|].
  by apply (patched_lit_word _ _
              (fun _ => txt "(request.body as Record<string, unknown>).")).
Qed.

Lemma pattern4_keeps_marker (s : text) :
  str_in (txt "interface QueryParams") s = true ->
  str_in (txt "interface QueryParams") (pattern4 s) = true.
Proof.
  apply (patched_keeps (txt "error.message")); [done|].
  apply patched_pattern4.
Qed.

Lemma add_interface_marked (c : text) :
  str_in (txt "interface QueryParams") c = true -> add_interface c = c.
Proof. intros H. unfold add_interface. by rewrite H. Qed.

(** Where [add_interface] changes the text, it inserts [interface_def] in
    front of the leftmost anchor. *)
Lemma add_interface_cases (c : text) :
  add_interface c = c
  \/ exists i, str_find (txt "export async function") c = Some i
       /\ str_in (txt "interface QueryParams") c = false
       /\ add_interface c = take i c ++ interface_def ++ drop i c.
Proof.
  unfold add_interface, anchor_re. rewrite re_search_lit.
  destruct (str_in _ c); [by left|]. simpl.
  destruct (str_find _ c) as [i|]; [|by left]. right. by exists i.
Qed.

Lemma pattern2_keeps_marker (s : text) :
  str_in (txt "interface QueryParams") s = true ->
  str_in (txt "interface QueryParams") (pattern2 s) = true.
Proof.
  intros H. unfold pattern2.
  destruct (str_in (txt "request.query") s); [|done].
  rewrite add_interface_marked by done. by apply query_sub_keeps_marker.
Qed.

Lemma fix_content_keeps_marker (s : text) :
  str_in (txt "interface QueryParams") s = true ->
  str_in (txt "interface QueryParams") (fix_content s) = true.
Proof.
  intros H. unfold fix_content.
  by apply pattern4_keeps_marker, pattern3_keeps_marker,
       pattern2_keeps_marker, pattern1_keeps_marker.
Qed.

(** * The claims *)

(** C1.  The file that consists of the line
    [const id = request.params.id;] is rewritten to
    [const id = (request.params as { id: string }).id;] and reported as
    changed; a second run on the rewritten file reports no change and
    leaves it as it is: pattern 1 does not match its own output. *)
Theorem params_line_fixed_once (p : string) :
  let line := txt "const id = request.params.id;" in
  let cast := txt "const id = (request.params as { id: string }).id;" in
  fix_api_route_file (Disk {[p := line]} []) p
    = Some (Disk {[p := cast]} [(p, cast)], true)
  /\ fix_api_route_file (Disk {[p := cast]} [(p, cast)]) p
    = Some (Disk {[p := cast]} [(p, cast)], false).
Proof.
  intros line cast.
  assert (fix_content line = cast) as H1 by (vm_compute; reflexivity).
  assert (fix_content cast = cast) as H2 by (vm_compute; reflexivity).
  unfold fix_api_route_file. cbn [files writes].
  rewrite !lookup_singleton_eq. cbn zeta. rewrite H1, H2. split.
  - rewrite bool_decide_eq_true_2 by (by vm_compute).
    by rewrite insert_singleton_eq.
  - by rewrite bool_decide_eq_false_2 by (intros H; by apply H).
Qed.

(** C2.  A text with none of the substrings [.params.], [.query],
    [.body.] and [catch (error)] comes out of the engine as it went in;
    the file is reported unchanged and nothing is written. *)
Theorem no_trigger_no_change (d : disk) (p : string) (s : text) :
  files d !! p = Some s ->
  str_in (txt ".params.") s = false ->
  str_in (txt ".query") s = false ->
  str_in (txt ".body.") s = false ->
  str_in (txt "catch (error)") s = false ->
  fix_content s = s /\ fix_api_route_file d p = Some (d, false).
Proof.
  intros Hp H1 H2 H3 H4.
  assert (str_in (txt "request.params.") s = false) as R1
    by exact (str_in_infix_false (txt "request") _ [] s H1).
  assert (str_in (txt "request.query") s = false) as R2
    by exact (str_in_infix_false (txt "request") _ [] s H2).
  assert (str_in (txt "request.body.") s = false) as R3
    by exact (str_in_infix_false (txt "request") _ [] s H3).
  assert (str_in (txt "catch (error) {") s = false) as R4
    by exact (str_in_infix_false [] _ (txt " {") s H4).
  assert (fix_content s = s) as Hfix.
  { unfold fix_content. rewrite (pattern1_absent s R1).
    unfold pattern2. rewrite R2.
    rewrite (pattern3_absent s R3). by apply pattern4_absent. }
  split; [done|].
  unfold fix_api_route_file. rewrite Hp. cbn zeta. rewrite Hfix.
  by rewrite bool_decide_eq_false_2 by (intros H; by apply H).
Qed.

(** C7.  For a file that can be read, the flag that [fix_api_route_file]
    returns is true exactly when the text after the four patterns differs
    from the text read.  When it is true the file is written once, with the
    new text, and no other file is touched; when it is false neither the
    files nor the log of writes change. *)
Theorem changed_flag_and_write_back (d : disk) (p : string) (original : text) :
  files d !! p = Some original ->
  exists d' changed,
    fix_api_route_file d p = Some (d', changed)
    /\ (changed = true <-> fix_content original <> original)
    /\ (changed = true ->
          files d' = <[p := fix_content original]> (files d)
          /\ writes d' = writes d ++ [(p, fix_content original)])
    /\ (changed = false -> d' = d).
Proof.
  intros Hp. unfold fix_api_route_file. rewrite Hp. cbn zeta.
  destruct (decide (fix_content original <> original)) as [Hne|Heq].
  - rewrite bool_decide_eq_true_2 by done.
    eexists _, true. repeat split; try done.
  - rewrite bool_decide_eq_false_2 by done.
    eexists _, false. repeat split; try done.
Qed.

(** C8, as the script behaves.  When the routes directory is missing or
    cannot be listed, [os.walk] yields nothing: the run ends normally,
    reads and writes no file, and prints a total of zero. *)
Theorem missing_routes_dir_counts_zero (d : disk) :
  main None d = Some (Run d 0 [TotalFixed 0]).
Proof. reflexivity. Qed.

(** C9.  A file name is a candidate exactly when it ends with [.ts] and
    does not end with [.test.ts]; of [a.ts], [a.test.ts] and [b.js] only
    [a.ts] is one. *)
Theorem candidate_iff_ts_not_test :
  (forall file : string,
     is_candidate file = true <->
     (exists stem, file = stem +:+ ".ts")
     /\ ~ (exists stem, file = stem +:+ ".test.ts"))
  /\ List.filter is_candidate ["a.ts"; "a.test.ts"; "b.js"]%string
     = ["a.ts"%string].
Proof.
  split; [|reflexivity].
  intros file. unfold is_candidate.
  assert (forall suffix : string,
            ends_with (txt suffix) (txt file) = true
            <-> exists stem, file = stem +:+ suffix) as Hends.
  { intros suffix. rewrite ends_with_spec. split.
    - intros [r Hr]. exists (string_of_list_ascii r).
      apply txt_inj. by rewrite txt_app, txt_surj.
    - intros [stem ->]. exists (txt stem). apply txt_app. }
  rewrite andb_true_iff, negb_true_iff, Hends, <- not_true_iff_false.
  by rewrite Hends.
Qed.


(** C3, as the script behaves.  Pattern 4 does not look at braces.  In a
    text whose leftmost [catch (error) {] stands behind [a] and is followed
    by [error.message] first behind [b], the part [a] is left as it is,
    with every [error.message] in it; exactly that first [error.message]
    becomes [(error as Error).message], whatever [b] holds, closing braces
    included; and the scan goes on behind it. *)
Theorem catch_rewrite_scope (a b r : text) :
  str_in (txt "catch (error) {") a = false ->
  str_find (txt "error.message") (b ++ txt "error.message" ++ r)
    = Some (length b) ->
  pattern4 a = a
  /\ pattern4 (a ++ txt "catch (error) {" ++ b ++ txt "error.message" ++ r)
     = a ++ txt "catch (error) {" ++ b ++ txt "(error as Error).message"
         ++ pattern4 r.
Proof.
  intros Ha Hb. split; [by apply pattern4_absent | by apply pattern4_first].
Qed.

(** C4, as the script behaves.  Pattern 1 looks for the literal
    [request.params.] followed by an identifier.  A text [a] without that
    literal is left as it is, whatever other receivers of [.params.] it
    holds.  Behind such a text the leftmost [request.params.] with its
    whole identifier [w] becomes [(request.params as { w: string }).w], and
    the scan goes on behind the identifier. *)
Theorem params_cast_on_request_only (a r : text) :
  str_in (txt "request.params.") a = false ->
  word_prefix r <> [] ->
  pattern1 a = a
  /\ pattern1 (a ++ txt "request.params." ++ r)
     = a ++ txt "(request.params as { " ++ word_prefix r ++ txt ": string })."
         ++ word_prefix r ++ pattern1 (drop (length (word_prefix r)) r).
Proof.
  intros Ha Hw. split; [by apply pattern1_absent|].
  unfold pattern1, params_re. rewrite re_sub_lit_word_first by done.
  unfold params_repl. by rewrite <- !app_assoc.
Qed.


(** C6, as the script behaves.  When the text [c] that pattern 1 hands
    over holds [request.query] and no [interface QueryParams]: the
    interface block, a line break, the three lines of the declaration and
    an empty line, is inserted right in front of the leftmost
    [export async function], or nothing is inserted when there is none;
    then the accesses are rewritten.  The rewriting looks for the literal
    [request.query.]: a text [a] without it is left as it is, and behind
    such a text the leftmost [request.query.] with its whole identifier [w]
    becomes [(request.query as QueryParams).w]. *)
Theorem query_rule_injects_then_casts (c : text) :
  str_in (txt "request.query") c = true ->
  str_in (txt "interface QueryParams") c = false ->
  pattern2 c = re_sub query_re query_repl (add_interface c)
  /\ (forall i,
        starts_with (txt "export async function") (drop i c) = true ->
        (forall j, j < i ->
           starts_with (txt "export async function") (drop j c) = false) ->
        add_interface c = take i c ++ interface_def ++ drop i c)
  /\ (str_in (txt "export async function") c = false -> add_interface c = c)
  /\ interface_def
     = ["010"%char] ++ txt "interface QueryParams {" ++ ["010"%char]
       ++ txt "    [key: string]: string | undefined;" ++ ["010"%char]
       ++ txt "}" ++ ["010"%char] ++ ["010"%char]
  /\ (forall a r,
        str_in (txt "request.query.") a = false ->
        word_prefix r <> [] ->
        re_sub query_re query_repl a = a
        /\ re_sub query_re query_repl (a ++ txt "request.query." ++ r)
           = a ++ txt "(request.query as QueryParams)." ++ word_prefix r
               ++ re_sub query_re query_repl (drop (length (word_prefix r)) r)).
Proof.
  intros Hq Hm. repeat split.
  - unfold pattern2. by rewrite Hq.
  - intros i Hi Hfirst.
    assert (str_find (txt "export async function") c = Some i) as Hfind.
    { apply str_find_spec. repeat split; [done | | done].
      destruct (decide (i <= length c)) as [|Hgt]; [done|].
      rewrite drop_ge in Hi by lia. done. }
    unfold add_interface, anchor_re. rewrite Hm, re_search_lit, Hfind. done.
  - intros Hno. unfold add_interface, anchor_re.
    rewrite Hm, re_search_lit. apply str_find_None in Hno. by rewrite Hno.
  - by apply query_sub_absent.
  - unfold query_re. rewrite re_sub_lit_word_first by done.
    unfold query_repl. by rewrite <- !app_assoc.
Qed.

(** * Further properties *)

(** ** The loops as one pass over the candidate paths *)

Lemma visit_file_path (root : string) (st : option run) (file : string) :
  visit_file root st file =
  if is_candidate file then visit_path st (path_join root file) else st.
Proof. destruct st as [r|]; simpl; by destruct (is_candidate file). Qed.

Lemma fold_visit_file (root : string) (files : list string) (st : option run) :
  fold_left (visit_file root) files st =
  fold_left visit_path (map (path_join root) (List.filter is_candidate files)) st.
Proof.
  revert st. induction files as [|f files IH]; intros st; [done|].
  cbn [fold_left List.filter]. rewrite IH, visit_file_path.
  by destruct (is_candidate f).
Qed.

Lemma fold_visit_dir (walk : list (string * list string * list string))
    (st : option run) :
  fold_left visit_dir walk st = fold_left visit_path (candidate_paths walk) st.
Proof.
  revert st. induction walk as [|[[root dirs] files] walk IH]; intros st; [done|].
  cbn [fold_left candidate_paths flat_map]. rewrite fold_left_app, IH.
  f_equal. apply fold_visit_file.
Qed.

Lemma fold_visit_path_None (ps : list string) :
  fold_left visit_path ps None = None.
Proof. by induction ps. Qed.

(** What one pass keeps and what it records. *)
Lemma fold_visit_path_spec (ps : list string) (r : run) :
  match fold_left visit_path ps (Some r) with
  | None => exists p, p ∈ ps /\ files (run_disk r) !! p = None
  | Some r' =>
      (forall p, p ∈ ps -> is_Some (files (run_disk r) !! p))
      /\ dom (files (run_disk r')) = dom (files (run_disk r))
      /\ (forall q, q ∉ ps ->
            files (run_disk r') !! q = files (run_disk r) !! q)
      /\ exists ws,
           writes (run_disk r') = writes (run_disk r) ++ ws
           /\ fixed_count r' = fixed_count r + length ws
           /\ stdout r' = stdout r ++ map (fun w => Fixed w.1) ws
           /\ Forall (fun w => w.1 ∈ ps) ws
  end.
Proof.
  revert r. induction ps as [|p ps IH]; intros [d n out].
  { simpl. repeat split; [by intros p ?%elem_of_nil|].
    exists []. by rewrite !app_nil_r, Nat.add_0_r. }
  cbn [fold_left visit_path]. unfold fix_api_route_file.
  cbn [run_disk fixed_count stdout].
  destruct (files d !! p) as [content|] eqn:Ep.
  2:{ rewrite fold_visit_path_None. exists p. split; [apply elem_of_cons; by left | done]. }
  cbn zeta. case_bool_decide as Hch.
  - specialize (IH (Run (Disk (<[p:=fix_content content]> (files d))
                              (writes d ++ [(p, fix_content content)]))
                        (S n) (out ++ [Fixed p]))).
    destruct (fold_left visit_path ps _) as [r'|]; cbn [run_disk files writes
      fixed_count stdout] in IH.
    + destruct IH as (Hread & Hdom & Hframe & ws & Hw & Hc & Ho & Hin).
      split; [|split; [|split]].
      * intros q [->|Hq]%elem_of_cons; [by eexists|].
        destruct (Hread q Hq) as [x Hx].
        destruct (decide (p = q)) as [->|Hne]; [by eexists|].
        rewrite lookup_insert_ne in Hx by done. by eexists.
      * rewrite Hdom. apply dom_insert_lookup_L. by eexists.
      * intros q [Hne Hq]%not_elem_of_cons. rewrite Hframe by done.
        by rewrite lookup_insert_ne.
      * exists ((p, fix_content content) :: ws). rewrite Hw, Hc, Ho.
        rewrite <- !app_assoc. repeat split; [simpl; lia|].
        constructor; [apply elem_of_cons; by left|].
        eapply Forall_impl; [done|]. intros w Hw'. apply elem_of_cons. by right.
    + destruct IH as (q & Hq & Hnone). exists q. split; [apply elem_of_cons; by right|].
      destruct (decide (p = q)) as [->|Hne].
      * by rewrite lookup_insert_eq in Hnone.
      * by rewrite lookup_insert_ne in Hnone.
  - specialize (IH (Run d n out)).
    destruct (fold_left visit_path ps _) as [r'|];
      cbn [run_disk fixed_count stdout] in IH.
    + destruct IH as (Hread & Hdom & Hframe & ws & Hw & Hc & Ho & Hin).
      split; [|split; [|split]]; try done.
      * intros q [->|Hq]%elem_of_cons; [by eexists | by apply Hread].
      * intros q [Hne Hq]%not_elem_of_cons. by apply Hframe.
      * exists ws. repeat split; try done.
        eapply Forall_impl; [done|]. intros w Hw'. apply elem_of_cons. by right.
    + destruct IH as (q & Hq & Hnone). exists q. split; [apply elem_of_cons; by right | done].
Qed.

Lemma fold_visit_path_clean (ps : list string) (r : run) :
  (forall p, p ∈ ps ->
     exists s, files (run_disk r) !! p = Some s /\ fix_content s = s) ->
  fold_left visit_path ps (Some r) = Some r.
Proof.
  induction ps as [|p ps IH]; intros Hclean; [done|].
  cbn [fold_left visit_path]. unfold fix_api_route_file.
  destruct (Hclean p) as (s & Hs & Hfix); [apply elem_of_cons; by left|].
  rewrite Hs. cbn zeta. rewrite Hfix.
  rewrite bool_decide_eq_false_2 by (intros H; by apply H).
  destruct r as [d n out]. apply IH.
  intros q Hq. apply Hclean, elem_of_cons. by right.
Qed.

(** ** The run as a whole *)


(** X2.  In a run that ends normally the count that is printed last is
    the number of files written during the run, and the lines printed
    before it name the written files, one line for each write and in the
    order of the writes. *)
Theorem run_report_matches_writes (listing : option (list node)) (d : disk)
    (r : run) :
  main listing d = Some r ->
  exists ws,
    writes (run_disk r) = writes d ++ ws
    /\ fixed_count r = length ws
    /\ stdout r = map (fun w => Fixed w.1) ws ++ [TotalFixed (length ws)].
Proof.
  unfold main. rewrite fold_visit_dir.
  pose proof (fold_visit_path_spec
                (candidate_paths (os_walk routes_dir listing)) (Run d 0 [])) as H.
  destruct (fold_left visit_path _ _) as [r'|]; [|done].
  cbn [run_disk fixed_count stdout] in H.
  destruct H as (_ & _ & _ & ws & Hw & Hc & Ho & _).
  intros [= <-]. exists ws. cbn [run_disk fixed_count stdout].
  by rewrite Hw, Hc, Ho.
Qed.

(** X3.  A run that ends normally creates and deletes no file, writes
    only to paths of candidates listed under the routes directory, and
    leaves the text of every other path as it was. *)
Theorem run_touches_candidates_only (listing : option (list node)) (d : disk)
    (r : run) :
  main listing d = Some r ->
  dom (files (run_disk r)) = dom (files d)
  /\ (forall q, q ∉ candidate_paths (os_walk routes_dir listing) ->
        files (run_disk r) !! q = files d !! q)
  /\ (forall p t, (p, t) ∈ drop (length (writes d)) (writes (run_disk r)) ->
        p ∈ candidate_paths (os_walk routes_dir listing)).
Proof.
  unfold main. rewrite fold_visit_dir.
  pose proof (fold_visit_path_spec
                (candidate_paths (os_walk routes_dir listing)) (Run d 0 [])) as H.
  destruct (fold_left visit_path _ _) as [r'|]; [|done].
  cbn [run_disk fixed_count stdout] in H.
  destruct H as (_ & Hdom & Hframe & ws & Hw & _ & _ & Hin).
  intros [= <-]. cbn [run_disk]. repeat split; [done | done |].
  intros p t. rewrite Hw, drop_app_length. intros Hpt.
  rewrite Forall_forall in Hin. apply (Hin (p, t) Hpt).
Qed.

(** X4.  When every visited file can be read and comes out of the four
    patterns as it went in, the run writes nothing, leaves the files as
    they are, and prints a total of zero. *)
Theorem clean_run_counts_zero (listing : option (list node)) (d : disk) :
  (forall p, p ∈ candidate_paths (os_walk routes_dir listing) ->
     exists s, files d !! p = Some s /\ fix_content s = s) ->
  main listing d = Some (Run d 0 [TotalFixed 0]).
Proof.
  intros Hclean. unfold main.
  by rewrite fold_visit_dir, fold_visit_path_clean.
Qed.

(** The visited paths, read off the walk. *)
Lemma candidate_paths_spec (walk : list (string * list string * list string))
    (p : string) :
  p ∈ candidate_paths walk <->
  exists root dirs files file,
    (root, dirs, files) ∈ walk /\ file ∈ files
    /\ is_candidate file = true /\ p = path_join root file.
Proof.
  unfold candidate_paths.
  rewrite list_elem_of_In, in_flat_map. split.
  - intros ([[root dirs] files] & Hin & Hp). cbn [fst snd] in Hp.
    apply in_map_iff in Hp as (file & <- & [Hf Hc]%filter_In).
    exists root, dirs, files, file.
    by rewrite !list_elem_of_In.
  - intros (root & dirs & files & file & Hin & Hf & Hc & ->).
    exists (root, dirs, files). rewrite <- list_elem_of_In. split; [done|].
    cbn [fst snd]. apply in_map, filter_In. by rewrite <- list_elem_of_In.
Qed.

(** ** The patterns at their edges *)

Lemma str_in_suffix_false (p x1 x2 : text) :
  str_in p (x1 ++ x2) = false -> str_in p x2 = false.
Proof.
  intros H. destruct (str_in p x2) eqn:E; [|done].
  by rewrite (str_in_app_r p x1 x2 E) in H.
Qed.

(** The literal with no word character behind it is no match. *)
Lemma re_sub_lit_no_word (l : text) (repl : text -> text -> text)
    (a r : text) :
  overlap_free l = true -> l <> [] ->
  str_in l a = false -> word_prefix r = [] ->
  re_sub [Lit l; WordGroup] repl (a ++ l ++ r) =
  a ++ l ++ re_sub [Lit l; WordGroup] repl r.
Proof.
  intros Hfree Hl Ha Hw. unfold re_sub.
  rewrite (app_assoc a l r), sub_scan_prefix; [by rewrite <- app_assoc|].
  intros x1 x2 Hx Hx2.
  assert (match_here [Lit l; WordGroup] (l ++ r) = None) as Hwhole.
  { by rewrite match_lit_word, starts_with_app, drop_app_length, Hw. }
  apply app_eq_app in Hx as [l' [[Ha' Hx']|[Hx1 Hl']]].
  - destruct l' as [|c l']; [by rewrite Hx'|].
    apply match_lit_fails. rewrite Hx', <- app_assoc.
    by apply (absent_before l a r x1 (c :: l')).
  - destruct l' as [|c l']; [simpl in Hl'; by rewrite <- Hl'|].
    apply match_lit_fails.
    assert (1 <= length (c :: l') < 1 + (length l - 1)) as Hk.
    { apply (f_equal length) in Hl'. rewrite length_app in Hl'.
      destruct x2; [done | simpl in *; lia]. }
    assert (x2 = drop (length (c :: l')) l) as ->
      by (by rewrite Hl', drop_app_length).
    apply clash_starts_with. rewrite clash_sym.
    by apply (forallb_seq (fun k => clash (drop k l) l) 1 (length l - 1)).
Qed.

(** X5.  Pattern 1 needs an identifier: [request.params.] with no word
    character behind it, at the end of the text or in front of a bracket
    for instance, is left as it is, and the scan goes on behind it. *)
Theorem params_without_identifier_kept (a r : text) :
  str_in (txt "request.params.") a = false ->
  word_prefix r = [] ->
  pattern1 (a ++ txt "request.params." ++ r)
  = a ++ txt "request.params." ++ pattern1 r.
Proof. intros Ha Hw. by apply re_sub_lit_no_word. Qed.

(** X6.  Pattern 3 looks for the literal [request.body.] followed by an
    identifier.  A text [a] without that literal is left as it is; behind
    such a text the leftmost [request.body.] with its whole identifier [w]
    becomes [(request.body as Record<string, unknown>).w], and the scan
    goes on behind the identifier. *)
Theorem body_cast_on_request_only (a r : text) :
  str_in (txt "request.body.") a = false ->
  word_prefix r <> [] ->
  pattern3 a = a
  /\ pattern3 (a ++ txt "request.body." ++ r)
     = a ++ txt "(request.body as Record<string, unknown>)."
         ++ word_prefix r ++ pattern3 (drop (length (word_prefix r)) r).
Proof.
  intros Ha Hw. split; [by apply pattern3_absent|].
  unfold pattern3, body_re. rewrite re_sub_lit_word_first by done.
  unfold body_repl. by rewrite <- !app_assoc.
Qed.

(** X7.  Pattern 4 needs an [error.message] behind the opening of the
    catch block: a text without [error.message] is left as it is, however
    many times [catch (error) {] stands in it. *)
Theorem catch_without_message_kept (s : text) :
  str_in (txt "error.message") s = false -> pattern4 s = s.
Proof.
  intros H. apply sub_scan_id. intros x1 x2 ->. unfold catch_re.
  rewrite match_lit_lazy_lit. destruct (starts_with _ x2); [|done].
  assert (str_find (txt "error.message")
            (drop (length (txt "catch (error) {")) x2) = None) as ->; [|done].
  apply str_find_None.
  apply (str_in_suffix_false _ (take (length (txt "catch (error) {")) x2)).
  rewrite take_drop. by apply (str_in_suffix_false _ x1).
Qed.

(** X8.  A file that holds [interface QueryParams] never gets the
    interface inserted, wherever the marker stands and whatever else the
    file holds, and it still holds the marker after the run. *)
Theorem marked_file_gets_no_interface (s : text) :
  str_in (txt "interface QueryParams") s = true ->
  add_interface (pattern1 s) = pattern1 s
  /\ str_in (txt "interface QueryParams") (fix_content s) = true.
Proof.
  intros H. split; [|by apply fix_content_keeps_marker].
  by apply add_interface_marked, pattern1_keeps_marker.
Qed.

(** ** The engine only inserts characters *)

Ltac pick_sublist :=
  repeat first [apply sublist_nil | apply sublist_skip | apply sublist_cons].

Lemma sublist_same_length (l1 l2 : text) :
  l1 `sublist_of` l2 -> length l2 <= length l1 -> l1 = l2.
Proof.
  induction 1 as [|x l1 l2 H IH|x l1 l2 H IH]; simpl; intros Hlen; [done| |].
  - f_equal. apply IH. lia.
  - apply sublist_length in H. lia.
Qed.

(** When every replacement holds the matched text as a subsequence, so
    does the result of the scan. *)
Lemma sub_scan_sublist (m : text -> match_result)
    (repl : text -> text -> text) :
  (forall s n g, m s = Some (n, g) ->
     take n s `sublist_of` repl (take n s) g) ->
  forall s, s `sublist_of` sub_scan m repl s 0.
Proof.
  intros Hrepl s.
  assert (forall k s, length s <= k -> s `sublist_of` sub_scan m repl s 0) as H;
    [|by apply (H (length s))].
  clear s. induction k as [|k IH]; intros s Hk.
  { destruct s; [constructor | simpl in Hk; lia]. }
  destruct s as [|c s]; [constructor|].
  cbn [sub_scan]. destruct (m (c :: s)) as [[[|n] g]|] eqn:Em.
  - apply sublist_inserts_l, sublist_skip, IH. simpl in Hk. lia.
  - rewrite sub_scan_skip.
    rewrite <- (take_drop (S n) (c :: s)) at 1.
    apply sublist_app; [by apply Hrepl|].
    apply IH. rewrite length_drop. simpl in *. lia.
  - apply sublist_skip, IH. simpl in Hk. lia.
Qed.

Lemma re_sub_lit_word_sublist (l : text) (repl : text -> text -> text)
    (f : text -> text) :
  (forall g0 g1, repl g0 g1 = f g1 ++ g1) ->
  (forall w, l `sublist_of` f w) ->
  forall s, s `sublist_of` re_sub [Lit l; WordGroup] repl s.
Proof.
  intros Hrepl Hl. apply sub_scan_sublist. intros s n g Hm.
  rewrite match_lit_word in Hm.
  destruct (starts_with l s) eqn:Es; [|done].
  apply starts_with_drop in Es.
  remember (drop (length l) s) as x eqn:Ex.
  destruct (word_prefix x) as [|c w] eqn:Ew; [done|].
  injection Hm as <- <-. rewrite Hrepl.
  match goal with
  | |- take ?k s `sublist_of` _ => assert (take k s = l ++ c :: w) as ->
  end.
  { rewrite Es, take_app_add' by done. f_equal.
    pose proof (word_prefix_take x) as Ht. by rewrite Ew in Ht. }
  by apply sublist_app.
Qed.

Lemma str_replace_sublist (old new s : text) :
  old `sublist_of` new -> s `sublist_of` str_replace old new s.
Proof.
  intros H. apply sub_scan_sublist. intros x n g Hm.
  destruct (starts_with old x) eqn:Es; [|done]. injection Hm as <- <-.
  apply starts_with_drop in Es. rewrite Es at 1.
  by rewrite take_app_length.
Qed.

Lemma pattern1_sublist (s : text) : s `sublist_of` pattern1 s.
Proof.
  apply (re_sub_lit_word_sublist _ _
           (fun g1 => txt "(request.params as { " ++ g1 ++ txt ": string }).")).
  - intros g0 g1. unfold params_repl. by rewrite <- !app_assoc.
  - intros w.
    change (txt "request.params.") with (txt "request.params" ++ txt ".").
    apply sublist_app; [pick_sublist|].
    apply sublist_inserts_l. pick_sublist.
Qed.

Lemma pattern2_sublist (s : text) : s `sublist_of` pattern2 s.
Proof.
  unfold pattern2. destruct (str_in (txt "request.query") s); [|done].
  transitivity (add_interface s).
  - destruct (add_interface_cases s) as [->|(i & _ & _ & ->)]; [done|].
    rewrite <- (take_drop i s) at 1.
    apply sublist_app; [done|]. by apply sublist_inserts_l.
  - apply (re_sub_lit_word_sublist _ _
             (fun _ => txt "(request.query as QueryParams).")); [done|].
    intros _. pick_sublist.
Qed.

Lemma pattern3_sublist (s : text) : s `sublist_of` pattern3 s.
Proof.
  apply (re_sub_lit_word_sublist _ _
           (fun _ => txt "(request.body as Record<string, unknown>)."));
    [done|].
  intros _. pick_sublist.
Qed.

Lemma pattern4_sublist (s : text) : s `sublist_of` pattern4 s.
Proof.
  apply sub_scan_sublist. intros x n g _. unfold catch_repl.
  apply str_replace_sublist. pick_sublist.
Qed.

(** X9.  The engine only inserts: the text read is a subsequence of the
    text computed, no character of the file is dropped or moved.  So the
    result is never shorter, and the file is reported as changed exactly
    when the text grew. *)
Theorem engine_only_inserts (s : text) :
  s `sublist_of` fix_content s
  /\ length s <= length (fix_content s)
  /\ (fix_content s <> s <-> length s < length (fix_content s)).
Proof.
  assert (s `sublist_of` fix_content s) as H.
  { unfold fix_content.
    transitivity (pattern1 s); [apply pattern1_sublist|].
    transitivity (pattern2 (pattern1 s)); [apply pattern2_sublist|].
    transitivity (pattern3 (pattern2 (pattern1 s))); [apply pattern3_sublist|].
    apply pattern4_sublist. }
  pose proof (sublist_length _ _ H) as Hlen.
  repeat split; [done | done | |].
  - intros Hne.
    destruct (decide (length (fix_content s) <= length s)) as [Hle|]; [|lia].
    destruct Hne. symmetry. by apply sublist_same_length.
  - intros Hlt Heq. rewrite Heq in Hlt. lia.
Qed.



(** ** Pattern 2 on a file that names [request.query] without an access *)

Lemma starts_with_straddle (l u v : text) :
  starts_with l (u ++ v) = true ->
  (length l <= length u /\ starts_with l u = true)
  \/ (length u < length l /\ starts_with (drop (length u) l) v = true).
Proof.
  intros [q Hq]%starts_with_spec.
  destruct (decide (length l <= length u)) as [Hle|Hgt]; [left | right].
  - split; [done|]. apply starts_with_spec. exists (drop (length l) u).
    rewrite <- (take_drop (length l) u) at 1. f_equal.
    apply (f_equal (take (length l))) in Hq.
    rewrite take_app_le in Hq by done. by rewrite take_app_length in Hq.
  - split; [lia|]. apply starts_with_spec.
    apply (f_equal (drop (length u))) in Hq.
    rewrite drop_app_length, drop_app_le in Hq by lia. by exists q.
Qed.

(** Inserting a text that shares no character with any occurrence of
    [old] brings no occurrence of [old] about. *)
Lemma insert_keeps_absent (old m x y : text) :
  apart old m = true ->
  str_in old (x ++ y) = false -> str_in old (x ++ m ++ y) = false.
Proof.
  intros [H1 H2]%andb_true_iff Habs.
  destruct (str_in old (x ++ m ++ y)) eqn:E; [exfalso | done].
  apply str_in_app_cases in E as [(j & Hj & Hs)|E].
  - apply starts_with_straddle in Hs as [[_ Hs]|[Hlt Hs]].
    + assert (str_in old (x ++ y) = true); [|congruence].
      rewrite <- (take_drop j x), <- app_assoc.
      apply str_in_app_r, str_in_starts_with. by apply starts_with_extend.
    + assert (clash (drop (length (drop j x)) old) m = true) as Hc.
      { apply (forallb_seq (fun j => clash (drop j old) m) 0 (length old));
          [done | lia]. }
      by rewrite (clash_starts_with _ _ y Hc) in Hs.
  - apply str_in_app_cases in E as [(j & Hj & Hs)|E].
    + assert (clash old (drop j m) = true) as Hc.
      { apply (forallb_seq (fun k => clash old (drop k m)) 0 (length m));
          [done | lia]. }
      by rewrite (clash_starts_with _ _ y Hc) in Hs.
    + by rewrite (str_in_app_r old x y E) in Habs.
Qed.

(** X11.  The gate of pattern 2 is [request.query] without the dot.  A
    text that holds [request.query] but no [request.query.], as in
    [const q = request.query;], has no access to rewrite, yet it passes
    the gate: pattern 2 returns the text with the interface inserted in
    front of the leftmost [export async function] when the marker is
    missing, and changes nothing else. *)
Theorem query_without_access_still_injects (c : text) :
  str_in (txt "request.query") c = true ->
  str_in (txt "request.query.") c = false ->
  pattern2 c = add_interface c.
Proof.
  intros Hq Hno. unfold pattern2. rewrite Hq.
  apply query_sub_absent.
  destruct (add_interface_cases c) as [->|(i & _ & _ & ->)]; [done|].
  apply insert_keeps_absent; [done|]. by rewrite take_drop.
Qed.

(** ** Pattern 4 run twice *)

(** X12.  Pattern 4 is not idempotent: each pass rewrites one more
    [error.message] behind a [catch (error) {].  With no other
    [catch (error) {] around, and two occurrences of [error.message]
    behind it, the first pass rewrites the first one and a second pass
    rewrites the second. *)
Theorem second_pass_rewrites_next_message (a b b2 r : text) :
  str_in (txt "catch (error) {") a = false ->
  str_find (txt "error.message")
    (b ++ txt "error.message" ++ b2 ++ txt "error.message" ++ r)
    = Some (length b) ->
  str_find (txt "error.message")
    ((b ++ txt "(error as Error).message" ++ b2) ++ txt "error.message" ++ r)
    = Some (length (b ++ txt "(error as Error).message" ++ b2)) ->
  str_in (txt "catch (error) {") (b2 ++ txt "error.message" ++ r) = false ->
  pattern4 (pattern4
    (a ++ txt "catch (error) {" ++ b ++ txt "error.message"
       ++ b2 ++ txt "error.message" ++ r))
  = a ++ txt "catch (error) {" ++ b ++ txt "(error as Error).message"
      ++ b2 ++ txt "(error as Error).message" ++ r.
Proof.
  intros Ha Hb Hb2 Hr.
  rewrite pattern4_first by done. rewrite (pattern4_absent _ Hr).
  pose proof (pattern4_first a _ r Ha Hb2) as H2.
  rewrite <- !app_assoc in H2. rewrite H2. do 6 f_equal.
  apply pattern4_absent.
  by apply (str_in_suffix_false _ (b2 ++ txt "error.message")); rewrite <- app_assoc.
Qed.

End Engine.

(** * The claims on concrete files *)

(** C2 on a file without any trigger. *)
Lemma no_trigger_no_change_example :
  let s := txt "export const limit = 10;" in
  let d := Disk {["src/api/routes/limits.ts"%string := s]} [] in
  let p := "src/api/routes/limits.ts"%string in
  (files d !! p = Some s
   /\ str_in (txt ".params.") s = false
   /\ str_in (txt ".query") s = false
   /\ str_in (txt ".body.") s = false
   /\ str_in (txt "catch (error)") s = false)
  /\ fix_content ascii_only s = s
  /\ fix_api_route_file ascii_only d p = Some (d, false).
Proof.
  intros s d p.
  assert (files d !! p = Some s) as Hp by reflexivity.
  split; [by repeat split|].
  apply (no_trigger_no_change ascii_only d p s Hp); reflexivity.
Defined.

(** C7 on a file that changes. *)
Lemma changed_flag_and_write_back_example :
  let original := txt "return request.body.name;" in
  let d := Disk {["src/api/routes/user.ts"%string := original]} [] in
  let p := "src/api/routes/user.ts"%string in
  files d !! p = Some original
  /\ exists d' changed,
       fix_api_route_file ascii_only d p = Some (d', changed)
       /\ (changed = true <-> fix_content ascii_only original <> original)
       /\ (changed = true ->
             files d' = <[p := fix_content ascii_only original]> (files d)
             /\ writes d' = writes d ++ [(p, fix_content ascii_only original)])
       /\ (changed = false -> d' = d).
Proof.
  intros original d p.
  assert (files d !! p = Some original) as Hp by reflexivity.
  split; [done|].
  apply (changed_flag_and_write_back ascii_only d p original Hp).
Defined.


(** C3: an [error.message] behind the closed catch block is rewritten. *)
Lemma message_behind_block_rewritten :
  let pre := txt "try { run(); } catch (error) { stop(); } log(" in
  let input := pre ++ txt "error.message" ++ txt ");" in
  open_braces pre = 0
  /\ fix_content ascii_only input
     = txt "try { run(); } catch (error) { stop(); } log((error as Error).message);"
  /\ str_in (txt "error.message") (fix_content ascii_only input) = false.
Proof. by vm_compute. Qed.

(** C3 on a text where the catch block is closed before the message. *)
Lemma catch_rewrite_scope_example :
  let a := txt "log(error.message); try { run(); } " in
  let b := txt " stop(); } log(" in
  let r := txt ");" in
  (str_in (txt "catch (error) {") a = false
   /\ str_find (txt "error.message") (b ++ txt "error.message" ++ r)
      = Some (length b))
  /\ pattern4 ascii_only a = a
  /\ pattern4 ascii_only
       (a ++ txt "catch (error) {" ++ b ++ txt "error.message" ++ r)
     = a ++ txt "catch (error) {" ++ b ++ txt "(error as Error).message"
         ++ pattern4 ascii_only r.
Proof.
  intros a b r. split; [by repeat split|].
  apply (catch_rewrite_scope ascii_only a b r); reflexivity.
Defined.

(** C4: an access through [req] is not rewritten. *)
Lemma req_params_not_rewritten :
  let input := txt "const id = req.params.id;" in
  fix_content ascii_only input = input
  /\ fix_content ascii_only input
     <> txt "const id = (req.params as { id: string }).id;".
Proof. by vm_compute. Qed.

(** C4 on a line with both receivers. *)
Lemma params_cast_on_request_only_example :
  let a := txt "const a = req.params.id; const b = " in
  let r := txt "user_id;" in
  (str_in (txt "request.params.") a = false
   /\ word_prefix ascii_only r <> [])
  /\ pattern1 ascii_only a = a
  /\ pattern1 ascii_only (a ++ txt "request.params." ++ r)
     = a ++ txt "(request.params as { " ++ word_prefix ascii_only r
         ++ txt ": string })." ++ word_prefix ascii_only r
         ++ pattern1 ascii_only (drop (length (word_prefix ascii_only r)) r).
Proof.
  intros a r.
  assert (word_prefix ascii_only r <> []) as Hw by (by vm_compute).
  split; [by split|].
  apply (params_cast_on_request_only ascii_only a r); [reflexivity | exact Hw].
Defined.



(** C6: with [request.query] in the file, an access through [req] is
    still not rewritten; and of two accesses through [request] of which
    the first takes the receiver of the second as its identifier, the
    second is not rewritten. *)
Lemma req_query_not_rewritten :
  let c := txt "const a = request.query.a; const b = req.query.b;" in
  let c2 := txt "return request.query.request.query.id;" in
  str_in (txt "request.query") c = true
  /\ str_in (txt "interface QueryParams") c = false
  /\ pattern2 ascii_only c
     = txt "const a = (request.query as QueryParams).a; const b = req.query.b;"
  /\ pattern2 ascii_only c
     <> txt "const a = (request.query as QueryParams).a; const b = (req.query as QueryParams).b;"
  /\ pattern2 ascii_only c2
     = txt "return (request.query as QueryParams).request.query.id;"
  /\ str_in (txt "request.query.id") (pattern2 ascii_only c2) = true.
Proof. by vm_compute. Qed.

(** C8: without the routes directory the run ends normally. *)
Lemma missing_routes_dir_no_error :
  let d := Disk {["src/index.ts"%string := txt "const id = request.params.id;"]} [] in
  main ascii_only None d <> None
  /\ main ascii_only None d = Some (Run d 0 [TotalFixed 0]).
Proof. split; [discriminate | reflexivity]. Qed.

(** C6 on a file with an anchor and one query access. *)
Lemma query_rule_injects_then_casts_example :
  let c := txt "import x; export async function f(request) { return request.query.page; }" in
  (str_in (txt "request.query") c = true
   /\ str_in (txt "interface QueryParams") c = false)
  /\ pattern2 ascii_only c
     = txt "import x; " ++ interface_def
         ++ txt "export async function f(request) { return (request.query as QueryParams).page; }".
Proof.
  intros c. split; [by split|].
  destruct (query_rule_injects_then_casts ascii_only c eq_refl eq_refl)
    as (H1 & H2 & _).
  rewrite H1, (H2 10); [reflexivity | reflexivity |].
  intros j Hj. do 10 (destruct j as [|j]; [reflexivity|]). lia.
Defined.

(** * The further properties on concrete files *)

Lemma run_report_matches_writes_example :
  exists r,
    main ascii_only (Some sample_listing) sample_disk = Some r
    /\ exists ws,
         writes (run_disk r) = writes sample_disk ++ ws
         /\ fixed_count r = length ws
         /\ stdout r = map (fun w => Fixed w.1) ws ++ [TotalFixed (length ws)].
Proof.
  eexists. split; [vm_compute; reflexivity|].
  apply (run_report_matches_writes ascii_only (Some sample_listing) sample_disk).
  vm_compute; reflexivity.
Defined.

Lemma run_touches_candidates_only_example :
  exists r,
    main ascii_only (Some sample_listing) sample_disk = Some r
    /\ dom (files (run_disk r)) = dom (files sample_disk)
    /\ (forall q, q ∉ candidate_paths (os_walk routes_dir (Some sample_listing)) ->
          files (run_disk r) !! q = files sample_disk !! q)
    /\ (forall p t,
          (p, t) ∈ drop (length (writes sample_disk)) (writes (run_disk r)) ->
          p ∈ candidate_paths (os_walk routes_dir (Some sample_listing))).
Proof.
  eexists. split; [vm_compute; reflexivity|].
  apply (run_touches_candidates_only ascii_only (Some sample_listing) sample_disk).
  vm_compute; reflexivity.
Defined.


Lemma clean_run_counts_zero_example :
  let d := Disk (<["src/api/routes/users.ts"%string :=
                     txt "export const limit = 10;"]>
                 (<["src/api/routes/admin/roles.ts"%string :=
                     txt "export const roles = [];"]> ∅)) [] in
  main ascii_only (Some sample_listing) d = Some (Run d 0 [TotalFixed 0]).
Proof.
  intros d. apply (clean_run_counts_zero ascii_only (Some sample_listing) d).
  intros p Hp.
  change (p ∈ ["src/api/routes/users.ts"; "src/api/routes/admin/roles.ts"]%string)
    in Hp.
  apply elem_of_cons in Hp as [->|Hp];
    [eexists; split; reflexivity|].
  apply elem_of_cons in Hp as [->|Hp];
    [eexists; split; reflexivity|].
  by apply elem_of_nil in Hp.
Defined.

Lemma params_without_identifier_kept_example :
  let a := txt "const all = " in
  let r := txt "[key];" in
  (str_in (txt "request.params.") a = false
   /\ word_prefix ascii_only r = [])
  /\ pattern1 ascii_only (a ++ txt "request.params." ++ r)
     = a ++ txt "request.params." ++ pattern1 ascii_only r.
Proof.
  intros a r. split; [by split|].
  apply (params_without_identifier_kept ascii_only a r); reflexivity.
Defined.

Lemma body_cast_on_request_only_example :
  let a := txt "const a = req.body.name; const b = " in
  let r := txt "user_name;" in
  (str_in (txt "request.body.") a = false
   /\ word_prefix ascii_only r <> [])
  /\ pattern3 ascii_only a = a
  /\ pattern3 ascii_only (a ++ txt "request.body." ++ r)
     = a ++ txt "(request.body as Record<string, unknown>)."
         ++ word_prefix ascii_only r
         ++ pattern3 ascii_only (drop (length (word_prefix ascii_only r)) r).
Proof.
  intros a r.
  assert (word_prefix ascii_only r <> []) as Hw by (by vm_compute).
  split; [by split|].
  apply (body_cast_on_request_only ascii_only a r); [reflexivity | exact Hw].
Defined.

Lemma catch_without_message_kept_example :
  let s := txt "try { run(); } catch (error) { log(error); }" in
  str_in (txt "error.message") s = false
  /\ pattern4 ascii_only s = s.
Proof.
  intros s. split; [reflexivity|].
  apply (catch_without_message_kept ascii_only s). reflexivity.
Defined.

Lemma marked_file_gets_no_interface_example :
  let s := txt "// interface QueryParams
export async function f(request) { return request.query.page; }" in
  str_in (txt "interface QueryParams") s = true
  /\ add_interface ascii_only (pattern1 ascii_only s) = pattern1 ascii_only s
  /\ str_in (txt "interface QueryParams") (fix_content ascii_only s) = true.
Proof.
  intros s. split; [reflexivity|].
  apply (marked_file_gets_no_interface ascii_only s). reflexivity.
Defined.

Lemma query_without_access_still_injects_example :
  let c := txt "export async function f(request) { const q = request.query; }" in
  (str_in (txt "request.query") c = true
   /\ str_in (txt "request.query.") c = false)
  /\ pattern2 ascii_only c = add_interface ascii_only c
  /\ pattern2 ascii_only c = interface_def ++ c.
Proof.
  intros c. split; [by split|].
  split; [|by vm_compute].
  apply (query_without_access_still_injects ascii_only c); reflexivity.
Defined.

Lemma second_pass_rewrites_next_message_example :
  let a := txt "try { run(); } " in
  let b := txt " log(" in
  let b2 := txt "); send(" in
  let r := txt "); }" in
  (str_in (txt "catch (error) {") a = false
   /\ str_find (txt "error.message")
        (b ++ txt "error.message" ++ b2 ++ txt "error.message" ++ r)
      = Some (length b)
   /\ str_find (txt "error.message")
        ((b ++ txt "(error as Error).message" ++ b2)
           ++ txt "error.message" ++ r)
      = Some (length (b ++ txt "(error as Error).message" ++ b2))
   /\ str_in (txt "catch (error) {") (b2 ++ txt "error.message" ++ r) = false)
  /\ pattern4 ascii_only (pattern4 ascii_only
       (a ++ txt "catch (error) {" ++ b ++ txt "error.message"
          ++ b2 ++ txt "error.message" ++ r))
     = a ++ txt "catch (error) {" ++ b ++ txt "(error as Error).message"
         ++ b2 ++ txt "(error as Error).message" ++ r.
Proof.
  intros a b b2 r. split; [by repeat split|].
  apply (second_pass_rewrites_next_message ascii_only a b b2 r); reflexivity.
Defined.
